(** * bad_cpp.cpp: a shallow embedding of the four demonstration functions

    The translation unit [test_review/bad_cpp.cpp] declares one global,
    [int global_counter = 0;], and four free functions.  Each function is
    embedded as a program over a small signature of memory operations
    ([prog], a free monad).  One definition of each function serves two
    semantics: [run], the sequential execution of a call, and [step], the
    interleaving of several calls running as threads.

    An access the C++ standard leaves undefined (through a null or dangling
    pointer, out of the bounds of its object, of a cell never written) stops
    [run] with the reason ([Undefined]); the state reached so far and the
    list of accesses issued so far stay available.  [run_reading] is the
    same execution, except that the read of a cell never written yields
    some value and the call goes on, as the compiled code does.  Arithmetic
    on [int] wraps around, as the compiled code does. *)

From stdpp Require Import gmap strings list fin_maps.
From Stdlib Require Import ZArith Lia.

Open Scope Z_scope.

(** ** Machine integers *)

(** [int] on the targets the fixture is compiled for: 32 bits, 4 bytes. *)
Definition INT_MIN : Z := - 2 ^ 31.
Definition INT_MAX : Z := 2 ^ 31 - 1.

Definition int_fits (z : Z) : bool := (INT_MIN <=? z) && (z <=? INT_MAX).

(** The [int] a result is stored as: two's complement, 32 bits. *)
Definition wrap_int (z : Z) : Z := (z - INT_MIN) mod 2 ^ 32 + INT_MIN.

Inductive ctype := Char | Int.

Definition sizeof (t : ctype) : Z :=
  match t with Char => 1 | Int => 4 end.

(** ** Memory *)

Definition block := nat.

Inductive pointer :=
| NULL
| Ptr (b : block) (off : Z).

Inductive storage := Automatic | Dynamic.

(** An object is a run of [size_of] bytes.  [cells] holds the values stored
    so far, keyed by the byte offset of their first byte; an absent key is a
    cell that was never written (an indeterminate value). *)
Record object := Object {
  storage_of : storage;
  size_of : Z;
  cells : gmap Z Z
}.

(** The globals of the translation unit: [int global_counter]. *)
Inductive gvar := global_counter.

Record state := State {
  counter : Z;                  (* the value of global_counter *)
  mem : gmap nat object;        (* live objects, automatic and dynamic *)
  next_block : block;           (* blocks are never reused *)
  heap_avail : Z;               (* bytes malloc can still hand out *)
  stdout : list string          (* what printf has written *)
}.

(** The state the program starts in: [int global_counter = 0;]. *)
Definition initial_state (heap : Z) : state :=
  State 0 ∅ 0%nat heap [].

Definition set_counter (v : Z) (st : state) : state :=
  State v (mem st) (next_block st) (heap_avail st) (stdout st).

Definition set_mem (m : gmap nat object) (st : state) : state :=
  State (counter st) m (next_block st) (heap_avail st) (stdout st).

(** ** Undefined behaviour *)

Inductive ub :=
| NullDereference
| DanglingPointer (b : block)
| OutOfBounds (b : block) (addr size : Z)
| UninitializedRead (b : block) (addr : Z)
| OverlappingCopy
| InvalidRelease.

(** ** Operations *)

Inductive op : Type -> Type :=
| GetGlobal (g : gvar) : op Z
| SetGlobal (g : gvar) (v : Z) : op unit
| Alloca (bytes : Z) : op pointer
| EndScope (p : pointer) : op unit
| Malloc (bytes : Z) : op pointer
| Free (p : pointer) : op unit
| Load (t : ctype) (p : pointer) (idx : Z) : op Z
| Store (t : ctype) (p : pointer) (idx : Z) (v : Z) : op unit
| Strcpy (dst src : pointer) : op pointer
| Printf (fmt : string) : op unit.

Inductive prog (A : Type) : Type :=
| Ret (a : A)
| Vis {X : Type} (e : op X) (k : X -> prog A).

Arguments Ret {A} a.
Arguments Vis {A X} e k.

Fixpoint bind {A B : Type} (p : prog A) (f : A -> prog B) : prog B :=
  match p with
  | Ret a => f a
  | Vis e k => Vis e (fun x => bind (k x) f)
  end.

Definition trigger {X : Type} (e : op X) : prog X := Vis e Ret.

Notation "'do' x <- p ; q" := (bind p (fun x => q))
  (at level 10, x name, p at level 99, q at level 200,
   format "'[v' 'do'  x  <-  p ; '/' q ']'").
Notation "p ;; q" := (bind p (fun _ => q))
  (at level 100, q at level 200, right associativity).

(** Signed addition as the compiled code performs it: a sum that does not
    fit [int] wraps around (the language leaves that case undefined). *)
Definition int_add (a b : Z) : prog Z := Ret (wrap_int (a + b)).

(** ** The accesses a program issues *)

(** Every access is recorded when it is issued, before it is checked. *)
Inductive event :=
| EvGlobalRead (g : gvar)
| EvGlobalWrite (g : gvar) (v : Z)
| EvAlloc (s : storage) (bytes : Z) (p : pointer)
| EvRelease (s : storage) (p : pointer)
| EvLoad (t : ctype) (p : pointer) (idx : Z)
| EvStore (t : ctype) (p : pointer) (idx : Z) (v : Z)
| EvOutput (s : string).

Inductive result (X : Type) : Type :=
| Ok (x : X) (st : state)
| Fault (u : ub) (st : state).

Arguments Ok {X} x st.
Arguments Fault {X} u st.

(** ** What each operation does *)

(** The object and byte address an access of type [t] at [p[idx]] falls on. *)
Definition locate (st : state) (t : ctype) (p : pointer) (idx : Z)
  : ub + (block * Z * object) :=
  match p with
  | NULL => inl NullDereference
  | Ptr b off =>
      match mem st !! b with
      | None => inl (DanglingPointer b)
      | Some o =>
          let a := off + idx * sizeof t in
          if (0 <=? a) && (a + sizeof t <=? size_of o)
          then inr (b, a, o)
          else inl (OutOfBounds b a (size_of o))
      end
  end.

Definition load (st : state) (t : ctype) (p : pointer) (idx : Z) : result Z :=
  match locate st t p idx with
  | inl u => Fault u st
  | inr (b, a, o) =>
      match cells o !! a with
      | None => Fault (UninitializedRead b a) st
      | Some v => Ok v st
      end
  end.

Definition store (st : state) (t : ctype) (p : pointer) (idx v : Z)
  : result unit :=
  match locate st t p idx with
  | inl u => Fault u st
  | inr (b, a, o) =>
      Ok tt (set_mem (<[b := Object (storage_of o) (size_of o) (<[a := v]> (cells o))]>
                        (mem st)) st)
  end.

(** A new object of [bytes] bytes, every cell indeterminate. *)
Definition new_object (s : storage) (bytes : Z) (avail : Z) (st : state) : state :=
  State (counter st)
        (<[next_block st := Object s bytes ∅]> (mem st))
        (S (next_block st)) avail (stdout st).

Definition alloca (st : state) (bytes : Z) : result pointer :=
  Ok (Ptr (next_block st) 0) (new_object Automatic bytes (heap_avail st) st).

(** [malloc] returns a null pointer when the heap cannot serve the request. *)
Definition malloc (st : state) (bytes : Z) : result pointer :=
  if (0 <=? bytes) && (bytes <=? heap_avail st)
  then Ok (Ptr (next_block st) 0)
          (new_object Dynamic bytes (heap_avail st - bytes) st)
  else Ok NULL st.

Definition release (st : state) (s : storage) (p : pointer) : result unit :=
  match p with
  | NULL => match s with Dynamic => Ok tt st | Automatic => Fault InvalidRelease st end
  | Ptr b off =>
      match mem st !! b with
      | None => Fault (DanglingPointer b) st
      | Some o =>
          match s, storage_of o with
          | Automatic, Automatic =>
              if off =? 0
              then Ok tt (set_mem (delete b (mem st)) st)
              else Fault InvalidRelease st
          | Dynamic, Dynamic =>
              if off =? 0
              then Ok tt (State (counter st) (delete b (mem st)) (next_block st)
                                (heap_avail st + size_of o) (stdout st))
              else Fault InvalidRelease st
          | _, _ => Fault InvalidRelease st
          end
      end
  end.

(** [strcpy(dst, src)], from the C library: bytes are copied one at a time,
    the terminating NUL included, and nothing bounds the copy but that NUL.
    Source and destination ranges that overlap are undefined.  [fuel] is the
    number of bytes from [src] to the end of its object; the copy stops, at
    the NUL or at an access that is undefined, before the fuel is used up
    (lemma [strcpy_fuel_enough]). *)
Definition overlap_at (dst src : pointer) (i : Z) : bool :=
  match dst, src with
  | Ptr bd od, Ptr bs os => bool_decide (bd = bs) && (Z.abs (od - os) =? i)
  | _, _ => false
  end.

Fixpoint strcpy_from (fuel : nat) (dst src : pointer) (i : Z) (st : state)
  : list event * result pointer :=
  if overlap_at dst src i then ([], Fault OverlappingCopy st) else
  match load st Char src i with
  | Fault u st1 => ([EvLoad Char src i], Fault u st1)
  | Ok c st1 =>
      match store st1 Char dst i c with
      | Fault u st2 => ([EvLoad Char src i; EvStore Char dst i c], Fault u st2)
      | Ok _ st2 =>
          if c =? 0
          then ([EvLoad Char src i; EvStore Char dst i c], Ok dst st2)
          else
            match fuel with
            | O => ([EvLoad Char src i; EvStore Char dst i c; EvLoad Char src (i + 1)],
                    Fault match src with
                          | Ptr b off => OutOfBounds b (off + (i + 1)) (off + (i + 1))
                          | NULL => NullDereference
                          end st2)
            | S fuel' =>
                let (evs, r) := strcpy_from fuel' dst src (i + 1) st2 in
                (EvLoad Char src i :: EvStore Char dst i c :: evs, r)
            end
      end
  end.

Definition bytes_from (st : state) (p : pointer) : nat :=
  match p with
  | NULL => O
  | Ptr b off =>
      match mem st !! b with
      | None => O
      | Some o => Z.to_nat (size_of o - off)
      end
  end.

Definition strcpy (st : state) (dst src : pointer) : list event * result pointer :=
  strcpy_from (bytes_from st src) dst src 0 st.

Definition handle {X : Type} (e : op X) (st : state) : list event * result X :=
  match e in op X return list event * result X with
  | GetGlobal g =>
      ([EvGlobalRead g], match g with global_counter => Ok (counter st) st end)
  | SetGlobal g v =>
      ([EvGlobalWrite g v],
       match g with global_counter => Ok tt (set_counter v st) end)
  | Alloca bytes =>
      let r := alloca st bytes in
      ([EvAlloc Automatic bytes (Ptr (next_block st) 0)], r)
  | EndScope p => ([EvRelease Automatic p], release st Automatic p)
  | Malloc bytes =>
      let r := malloc st bytes in
      ([EvAlloc Dynamic bytes match r with Ok p _ => p | Fault _ _ => NULL end], r)
  | Free p => ([EvRelease Dynamic p], release st Dynamic p)
  | Load t p idx => ([EvLoad t p idx], load st t p idx)
  | Store t p idx v => ([EvStore t p idx v], store st t p idx v)
  | Strcpy dst src => strcpy st dst src
  | Printf fmt =>
      ([EvOutput fmt],
       Ok tt (State (counter st) (mem st) (next_block st) (heap_avail st)
                    (stdout st ++ [fmt])))
  end.

(** ** Sequential execution of a call *)

Inductive outcome (A : Type) : Type :=
| Returned (a : A) (st : state)
| Undefined (u : ub) (st : state).

Arguments Returned {A} a st.
Arguments Undefined {A} u st.

Fixpoint run {A : Type} (p : prog A) (st : state) : list event * outcome A :=
  match p with
  | Ret a => ([], Returned a st)
  | Vis e k =>
      match handle e st with
      | (evs, Ok x st') =>
          let (evs', o) := run (k x) st' in (evs ++ evs', o)
      | (evs, Fault u st') => (evs, Undefined u st')
      end
  end.

Definition trace {A : Type} (p : prog A) (st : state) : list event := fst (run p st).
Definition result_of {A : Type} (p : prog A) (st : state) : outcome A := snd (run p st).

Definition final_state {A : Type} (o : outcome A) : state :=
  match o with
  | Returned _ st => st
  | Undefined _ st => st
  end.

(** ** Execution past an indeterminate read *)




(** ** The translation unit *)

(** <<
    void process_string(char* input) {
        char buffer[10];
        strcpy(buffer, input);
    }
    >> *)
Definition process_string (input : pointer) : prog unit :=
  do buffer <- trigger (Alloca 10);
  trigger (Strcpy buffer input);;
  trigger (EndScope buffer).

(** <<
    void memory_issue() {
        int* ptr = malloc(100 * sizeof(int));   // the result cast to int*
        ptr[0] = 10;
    }
    >> *)
Definition memory_issue : prog unit :=
  do ptr <- trigger (Malloc (100 * sizeof Int));
  trigger (Store Int ptr 0 10).

(** <<
    void race_condition() {
        global_counter++;
    }
    >> *)
Definition race_condition : prog unit :=
  do old <- trigger (GetGlobal global_counter);
  do new <- int_add old 1;
  trigger (SetGlobal global_counter new).

(** <<
    void BAD_FUNCTION_NAME() {
        int timeout = 3600;
        int x;
        if (x > 0) {
            printf("Undefined behavior");
        }
    }
    >> *)
Definition BAD_FUNCTION_NAME : prog unit :=
  do timeout <- trigger (Alloca (sizeof Int));
  trigger (Store Int timeout 0 3600);;
  do x <- trigger (Alloca (sizeof Int));
  do xv <- trigger (Load Int x 0);
  (if xv >? 0 then trigger (Printf "Undefined behavior") else Ret tt);;
  trigger (EndScope x);;
  trigger (EndScope timeout).

(** ** Several calls running as threads *)

(** One step of a pool of threads: some thread performs its next operation.
    Operations are the units of interleaving; [global_counter++] is two of
    them, a read and a write. *)
Inductive step : list (prog unit) * state -> list (prog unit) * state -> Prop :=
| step_thread (T : list (prog unit)) (st st' : state) (i : nat)
    (X : Type) (e : op X) (k : X -> prog unit) (x : X) (evs : list event) :
    T !! i = Some (Vis e k) ->
    handle e st = (evs, Ok x st') ->
    step (T, st) (<[i := k x]> T, st').


(** The access to a global a thread is about to perform.  [global_counter] is
    a plain [int]: every access is an ordinary, non-atomic one. *)
Inductive access := Access (g : gvar) (is_write : bool).

Definition op_access {X : Type} (e : op X) : option access :=
  match e with
  | GetGlobal g => Some (Access g false)
  | SetGlobal g _ => Some (Access g true)
  | _ => None
  end.

Definition next_access {A : Type} (p : prog A) : option access :=
  match p with
  | Ret _ => None
  | Vis e _ => op_access e
  end.

(** Two accesses conflict when they touch the same variable and one of them
    writes it. *)
Definition conflict (a b : access) : bool :=
  match a, b with
  | Access global_counter w1, Access global_counter w2 => w1 || w2
  end.

(** A pool is racy when two different threads are about to perform
    conflicting accesses: nothing orders one before the other. *)
Definition racy (T : list (prog unit)) : Prop :=
  exists (i j : nat) (pi pj : prog unit) (a b : access),
    i <> j /\ T !! i = Some pi /\ T !! j = Some pj /\
    next_access pi = Some a /\ next_access pj = Some b /\
    conflict a b = true.

Definition data_race (T : list (prog unit)) (st : state) : Prop :=
  exists T' st', rtc step (T, st) (T', st') /\ racy T'.

(** ** Predicates on states, programs and traces *)

(** Every live block lies below [next_block], and the counter is an [int]. *)
Definition wf_state (st : state) : Prop :=
  int_fits (counter st) = true /\
  map_Forall (fun (b : nat) (_ : object) => (b < next_block st)%nat) (mem st).

(** The bytes [s], none of them NUL, followed by a NUL, at address [a]. *)
Fixpoint holds (c : gmap Z Z) (a : Z) (s : list Z) : bool :=
  match s with
  | [] => bool_decide (c !! a = Some 0)
  | ch :: s' => bool_decide (c !! a = Some ch) && negb (ch =? 0) && holds c (a + 1) s'
  end.

(** [p] points to the NUL-terminated string [s], inside a live object. *)
Definition cstring_at (st : state) (p : pointer) (s : list Z) : bool :=
  match p with
  | NULL => false
  | Ptr b off =>
      match mem st !! b with
      | None => false
      | Some o =>
          (0 <=? off) && (off + Z.of_nat (length s) + 1 <=? size_of o)
          && holds (cells o) off s
      end
  end.

(** The bytes [bs] written to consecutive cells from [a] on. *)
Fixpoint fill (a : Z) (bs : list Z) (m : gmap Z Z) : gmap Z Z :=
  match bs with
  | [] => m
  | c :: bs' => fill (a + 1) bs' (<[a := c]> m)
  end.

(** The accesses of a copy of the bytes [bs], from index [i] on. *)
Fixpoint copy_events (dst src : pointer) (i : Z) (bs : list Z) : list event :=
  match bs with
  | [] => []
  | c :: bs' => EvLoad Char src i :: EvStore Char dst i c :: copy_events dst src (i + 1) bs'
  end.

Definition is_set_global {X : Type} (e : op X) : bool :=
  match e with SetGlobal _ _ => true | _ => false end.

Definition is_global_write (ev : event) : bool :=
  match ev with EvGlobalWrite _ _ => true | _ => false end.

Definition is_release (ev : event) : bool :=
  match ev with EvRelease _ _ => true | _ => false end.

(** [ev] is a store into block [b]. *)
Definition stores_to (b : block) (ev : event) : bool :=
  match ev with
  | EvStore _ (Ptr b' _) _ _ => bool_decide (b' = b)
  | _ => false
  end.

(** A program none of whose paths issues a write to a global. *)
Inductive writes_no_global {A : Type} : prog A -> Prop :=
| wng_ret (a : A) : writes_no_global (Ret a)
| wng_vis (X : Type) (e : op X) (k : X -> prog A) :
    is_set_global e = false ->
    (forall x, writes_no_global (k x)) ->
    writes_no_global (Vis e k).

Definition result_state {X : Type} (r : result X) : state :=
  match r with
  | Ok _ st => st
  | Fault _ st => st
  end.

(** A caller's state: one object holding the bytes [bs] and a NUL. *)
Definition caller_state (bs : list Z) (heap : Z) : state :=
  State 0 {[ 0%nat := Object Automatic (Z.of_nat (length bs) + 1) (fill 0 (bs ++ [0]) ∅) ]}
        1%nat heap [].

(** The state [memory_issue] returns in when the heap serves the request. *)
Definition after_memory_issue (st : state) : state :=
  State (counter st)
        (<[next_block st := Object Dynamic 400 (<[0 := 10]> ∅)]> (mem st))
        (S (next_block st)) (heap_avail st - 400) (stdout st).

(** [ev], if it is a store, falls inside the [size] bytes of block [b]. *)
Definition store_within (b : block) (size : Z) (ev : event) : bool :=
  match ev with
  | EvStore t (Ptr b' off) idx _ =>
      bool_decide (b' = b) && (0 <=? off + idx * sizeof t)
      && (off + idx * sizeof t + sizeof t <=? size)
  | EvStore _ NULL _ _ => false
  | _ => true
  end.

(** ** Callers *)

(** The file has no caller of its own; these are the two ways a program can
    use its functions more than once. *)

(** [n] calls of [f], one after the other, in one thread. *)
Fixpoint calls (n : nat) (f : prog unit) : prog unit :=
  match n with
  | O => Ret tt
  | S n' => f;; calls n' f
  end.

(** What one thread does next, taken alone: [step] lets some thread of the
    pool do exactly this. *)
Definition thread_step (p : prog unit) (st : state) : option (prog unit * state) :=
  match p with
  | Ret _ => None
  | Vis e k =>
      match handle e st with
      | (_, Ok x st') => Some (k x, st')
      | (_, Fault _ _) => None
      end
  end.


(** A program that only ever writes values of type [int] to a global. *)
Fixpoint stores_ints {A : Type} (p : prog A) : Prop :=
  match p with
  | Ret _ => True
  | Vis e k =>
      match e with
      | SetGlobal _ v => int_fits v = true
      | _ => True
      end /\ forall x, stores_ints (k x)
  end.

(** Where a call of [race_condition] stands: before its read, between its
    read and its write of [w], or returned. *)
Inductive progress := NotRead | Pending (w : Z) | Done.

Definition thread_at (s : progress) : prog unit :=
  match s with
  | NotRead => race_condition
  | Pending w => trigger (SetGlobal global_counter w)
  | Done => Ret tt
  end.

(** The combinations two calls started with the counter at [v] can be in,
    with the value [c] the counter then has. *)
Definition two_calls_at (v : Z) (s0 s1 : progress) (c : Z) : Prop :=
  match s0, s1 with
  | NotRead, NotRead => c = v
  | Pending w, NotRead | NotRead, Pending w => c = v /\ w = v + 1
  | Pending w0, Pending w1 => c = v /\ w0 = v + 1 /\ w1 = v + 1
  | Done, NotRead | NotRead, Done => c = v + 1
  | Done, Pending w | Pending w, Done => c = v + 1 /\ (w = v + 1 \/ w = v + 2)
  | Done, Done => c = v + 1 \/ c = v + 2
  end.


(** * Proofs *)

(** ** Executing one operation *)

Lemma run_vis_ok {A X : Type} (e : op X) (k : X -> prog A) (st st' : state)
    (ev : event) (x : X) (evs : list event) (o : outcome A) :
  handle e st = ([ev], Ok x st') ->
  run (k x) st' = (evs, o) ->
  run (Vis e k) st = (ev :: evs, o).
Proof. intros He Hk. cbn [run]. rewrite He, Hk. reflexivity. Qed.

Lemma run_vis_fault {A X : Type} (e : op X) (k : X -> prog A) (st st' : state)
    (evs : list event) (u : ub) :
  handle e st = (evs, Fault u st') ->
  run (Vis e k) st = (evs, Undefined u st').
Proof. intros He. cbn [run]. rewrite He. reflexivity. Qed.

Lemma run_vis_events {A X : Type} (e : op X) (k : X -> prog A) (st st' : state)
    (x : X) (evs0 evs : list event) (o : outcome A) :
  handle e st = (evs0, Ok x st') ->
  run (k x) st' = (evs, o) ->
  run (Vis e k) st = (evs0 ++ evs, o).
Proof. intros He Hk. cbn [run]. rewrite He, Hk. reflexivity. Qed.

Lemma run_ret {A : Type} (a : A) (st : state) : run (Ret a) st = ([], Returned a st).
Proof. reflexivity. Qed.

Section Accesses.
Variables (st : state) (t : ctype) (b : block) (off idx : Z) (o : object).
Hypothesis Hlive : mem st !! b = Some o.

Lemma locate_in_bounds :
  0 <= off + idx * sizeof t -> off + idx * sizeof t + sizeof t <= size_of o ->
  locate st t (Ptr b off) idx = inr (b, off + idx * sizeof t, o).
Proof.
  intros Hlo Hhi. unfold locate. rewrite Hlive.
  destruct (Z.leb_spec 0 (off + idx * sizeof t)); [|lia].
  destruct (Z.leb_spec (off + idx * sizeof t + sizeof t) (size_of o)); [|lia].
  reflexivity.
Qed.

Lemma locate_out_of_bounds :
  off + idx * sizeof t < 0 \/ size_of o < off + idx * sizeof t + sizeof t ->
  locate st t (Ptr b off) idx = inl (OutOfBounds b (off + idx * sizeof t) (size_of o)).
Proof.
  intros Hout. unfold locate. rewrite Hlive.
  destruct (Z.leb_spec 0 (off + idx * sizeof t));
    destruct (Z.leb_spec (off + idx * sizeof t + sizeof t) (size_of o));
    try reflexivity; lia.
Qed.

Lemma store_in_bounds (v : Z) :
  0 <= off + idx * sizeof t -> off + idx * sizeof t + sizeof t <= size_of o ->
  store st t (Ptr b off) idx v =
  Ok tt (set_mem (<[b := Object (storage_of o) (size_of o)
                            (<[off + idx * sizeof t := v]> (cells o))]> (mem st)) st).
Proof. intros Hlo Hhi. unfold store. rewrite locate_in_bounds by assumption. reflexivity. Qed.

Lemma store_out_of_bounds (v : Z) :
  off + idx * sizeof t < 0 \/ size_of o < off + idx * sizeof t + sizeof t ->
  store st t (Ptr b off) idx v = Fault (OutOfBounds b (off + idx * sizeof t) (size_of o)) st.
Proof. intros Hout. unfold store. rewrite locate_out_of_bounds by assumption. reflexivity. Qed.

Lemma load_initialized (v : Z) :
  0 <= off + idx * sizeof t -> off + idx * sizeof t + sizeof t <= size_of o ->
  cells o !! (off + idx * sizeof t) = Some v ->
  load st t (Ptr b off) idx = Ok v st.
Proof.
  intros Hlo Hhi Hv. unfold load. rewrite locate_in_bounds by assumption.
  rewrite Hv. reflexivity.
Qed.

Lemma load_indeterminate :
  0 <= off + idx * sizeof t -> off + idx * sizeof t + sizeof t <= size_of o ->
  cells o !! (off + idx * sizeof t) = None ->
  load st t (Ptr b off) idx = Fault (UninitializedRead b (off + idx * sizeof t)) st.
Proof.
  intros Hlo Hhi Hv. unfold load. rewrite locate_in_bounds by assumption.
  rewrite Hv. reflexivity.
Qed.
End Accesses.

Lemma new_object_lookup (s : storage) (bytes avail : Z) (st : state) :
  mem (new_object s bytes avail st) !! next_block st = Some (Object s bytes ∅).
Proof. cbn [new_object mem]. apply lookup_insert_eq. Qed.

Lemma fresh_block (st : state) : wf_state st -> mem st !! next_block st = None.
Proof.
  intros [_ Hbelow]. destruct (mem st !! next_block st) as [o|] eqn:Hb; [|reflexivity].
  apply Hbelow in Hb. lia.
Qed.

(** Unfolds a function of the translation unit down to its first operation. *)
Ltac exec :=
  cbn [process_string memory_issue race_condition BAD_FUNCTION_NAME
       bind trigger handle alloca sizeof Z.mul Z.add Pos.mul Pos.add].


(** ** The calls of [memory_issue] and [race_condition] *)

Lemma malloc_served (st : state) :
  400 <= heap_avail st ->
  malloc st 400 = Ok (Ptr (next_block st) 0)
                     (new_object Dynamic 400 (heap_avail st - 400) st).
Proof.
  intros Hok. unfold malloc.
  destruct (Z.leb_spec 400 (heap_avail st)); [reflexivity|lia].
Qed.

Lemma malloc_refused (st : state) :
  heap_avail st < 400 -> malloc st 400 = Ok NULL st.
Proof.
  intros Hfail. unfold malloc.
  destruct (Z.leb_spec 400 (heap_avail st)); [lia|reflexivity].
Qed.

Lemma run_memory_issue_served (st : state) :
  400 <= heap_avail st ->
  run memory_issue st =
  ([EvAlloc Dynamic 400 (Ptr (next_block st) 0); EvStore Int (Ptr (next_block st) 0) 0 10],
   Returned tt (after_memory_issue st)).
Proof.
  intros Hok. unfold memory_issue. exec.
  eapply run_vis_ok.
  { cbn [handle]. rewrite malloc_served by assumption. reflexivity. }
  cbn [bind]. eapply run_vis_ok; [|apply run_ret].
  cbn [handle].
  erewrite store_in_bounds by (try apply new_object_lookup; cbn; lia).
  cbn [new_object set_mem mem counter next_block heap_avail stdout storage_of size_of cells].
  rewrite insert_insert_eq. reflexivity.
Qed.

Lemma run_memory_issue_refused (st : state) :
  heap_avail st < 400 ->
  run memory_issue st =
  ([EvAlloc Dynamic 400 NULL; EvStore Int NULL 0 10], Undefined NullDereference st).
Proof.
  intros Hfail. unfold memory_issue. exec.
  eapply run_vis_ok.
  { cbn [handle]. rewrite malloc_refused by assumption. reflexivity. }
  cbn [bind]. eapply run_vis_fault. reflexivity.
Qed.

Lemma trace_memory_issue (st : state) :
  exists p, trace memory_issue st = [EvAlloc Dynamic 400 p; EvStore Int p 0 10].
Proof.
  unfold trace. destruct (Z.le_gt_cases 400 (heap_avail st)) as [Hok|Hfail].
  - rewrite run_memory_issue_served by assumption. eauto.
  - rewrite run_memory_issue_refused by lia. eauto.
Qed.

Lemma wrap_int_fits (z : Z) : int_fits z = true -> wrap_int z = z.
Proof.
  unfold int_fits, wrap_int, INT_MIN, INT_MAX. intros Hfits.
  apply andb_true_iff in Hfits as [Hlo Hhi]. apply Z.leb_le in Hlo, Hhi.
  rewrite Z.mod_small by lia. lia.
Qed.

Lemma int_fits_wrap (z : Z) : int_fits (wrap_int z) = true.
Proof.
  unfold int_fits, wrap_int, INT_MIN, INT_MAX.
  pose proof (Z.mod_pos_bound (z - - 2 ^ 31) (2 ^ 32) ltac:(lia)) as Hmod.
  apply andb_true_iff. split; apply Z.leb_le; lia.
Qed.

Lemma wrap_int_add (a b : Z) : wrap_int (wrap_int a + b) = wrap_int (a + b).
Proof.
  unfold wrap_int. f_equal.
  replace ((a - INT_MIN) mod 2 ^ 32 + INT_MIN + b - INT_MIN)
    with ((a - INT_MIN) mod 2 ^ 32 + b) by lia.
  replace (a + b - INT_MIN) with (a - INT_MIN + b) by lia.
  apply Zplus_mod_idemp_l.
Qed.

Lemma run_race_condition_wraps (st : state) :
  run race_condition st =
  ([EvGlobalRead global_counter;
    EvGlobalWrite global_counter (wrap_int (counter st + 1))],
   Returned tt (set_counter (wrap_int (counter st + 1)) st)).
Proof.
  unfold race_condition. exec.
  eapply run_vis_ok; [reflexivity|].
  cbn [bind]. unfold int_add. cbn [bind].
  eapply run_vis_ok; [reflexivity|apply run_ret].
Qed.

Lemma run_race_condition (st : state) :
  int_fits (counter st + 1) = true ->
  run race_condition st =
  ([EvGlobalRead global_counter; EvGlobalWrite global_counter (counter st + 1)],
   Returned tt (set_counter (counter st + 1) st)).
Proof.
  intros Hfits. rewrite run_race_condition_wraps, (wrap_int_fits _ Hfits). reflexivity.
Qed.

(** ** Operations other than a write to a global leave the counter alone *)

Lemma load_state (st : state) (t : ctype) (p : pointer) (idx : Z) :
  result_state (load st t p idx) = st.
Proof.
  unfold load. destruct (locate st t p idx) as [u|[[b a] o]]; [reflexivity|].
  destruct (cells o !! a); reflexivity.
Qed.

Lemma store_counter (st : state) (t : ctype) (p : pointer) (idx v : Z) :
  counter (result_state (store st t p idx v)) = counter st.
Proof.
  unfold store. destruct (locate st t p idx) as [u|[[b a] o]]; reflexivity.
Qed.

Lemma release_counter (st : state) (s : storage) (p : pointer) :
  counter (result_state (release st s p)) = counter st.
Proof.
  unfold release. destruct p as [|b off]; [destruct s; reflexivity|].
  destruct (mem st !! b) as [o|]; [|reflexivity].
  destruct s, (storage_of o), (off =? 0); reflexivity.
Qed.

Lemma strcpy_from_counter (fuel : nat) :
  forall (dst src : pointer) (i : Z) (st : state),
    counter (result_state (snd (strcpy_from fuel dst src i st))) = counter st /\
    Forall (fun ev => is_global_write ev = false) (fst (strcpy_from fuel dst src i st)).
Proof.
  induction fuel as [|fuel IH]; intros dst src i st; cbn [strcpy_from];
    (destruct (overlap_at dst src i); [split; [reflexivity|constructor]|]);
    pose proof (load_state st Char src i) as Hl;
    (destruct (load st Char src i) as [c st1|u st1]; cbn [result_state] in Hl; subst st1;
     [|split; [reflexivity|repeat constructor]]);
    pose proof (store_counter st Char dst i c) as Hs;
    (destruct (store st Char dst i c) as [[] st2|u st2]; cbn [result_state] in Hs;
     [|split; [exact Hs|repeat constructor]]);
    (destruct (c =? 0); [split; [exact Hs|repeat constructor]|]).
  - split; [exact Hs|repeat constructor].
  - destruct (IH dst src (i + 1) st2) as [Hc Hev].
    destruct (strcpy_from fuel dst src (i + 1) st2) as [evs r].
    cbn [fst snd] in *. split; [congruence|repeat constructor; exact Hev].
Qed.

Lemma handle_counter {X : Type} (e : op X) (st : state) :
  is_set_global e = false ->
  counter (result_state (snd (handle e st))) = counter st /\
  Forall (fun ev => is_global_write ev = false) (fst (handle e st)).
Proof.
  intros He. destruct e; try discriminate He; cbn [handle fst snd].
  - destruct g. split; [reflexivity|repeat constructor].
  - split; [reflexivity|repeat constructor].
  - split; [apply release_counter|repeat constructor].
  - split; [|repeat constructor].
    unfold malloc. destruct ((0 <=? bytes) && (bytes <=? heap_avail st)); reflexivity.
  - split; [apply release_counter|repeat constructor].
  - split; [|repeat constructor]. rewrite load_state. reflexivity.
  - split; [apply store_counter|repeat constructor].
  - apply strcpy_from_counter.
  - split; [reflexivity|repeat constructor].
Qed.

Lemma run_writes_no_global {A : Type} (p : prog A) :
  writes_no_global p ->
  forall st, counter (final_state (result_of p st)) = counter st /\
             Forall (fun ev => is_global_write ev = false) (trace p st).
Proof.
  induction 1 as [a|X e k He Hk IH]; intros st.
  - split; [reflexivity|constructor].
  - unfold result_of, trace. cbn [run].
    destruct (handle_counter e st He) as [Hc Hev].
    destruct (handle e st) as [evs [x st'|u st']]; cbn [fst snd result_state] in *.
    + destruct (IH x st') as [Hc' Hev']. unfold result_of, trace in *.
      destruct (run (k x) st') as [evs' o]. cbn [fst snd] in *.
      split; [congruence|apply Forall_app; auto].
    + split; assumption.
Qed.





(** ** The fuel of [strcpy] is enough *)

Lemma locate_inv (st : state) (t : ctype) (p : pointer) (idx : Z)
    (b : block) (a : Z) (o : object) :
  locate st t p idx = inr (b, a, o) ->
  exists off, p = Ptr b off /\ mem st !! b = Some o /\ a = off + idx * sizeof t /\
              0 <= a /\ a + sizeof t <= size_of o.
Proof.
  unfold locate. destruct p as [|b' off]; [discriminate|].
  destruct (mem st !! b') as [o'|] eqn:Hb; [|discriminate].
  destruct (Z.leb_spec 0 (off + idx * sizeof t)); [|discriminate].
  destruct (Z.leb_spec (off + idx * sizeof t + sizeof t) (size_of o')); [|discriminate].
  intros [= <- <- <-]. exists off. repeat split; (assumption || reflexivity).
Qed.

Lemma load_ok_inv (st st1 : state) (t : ctype) (b : block) (off idx v : Z) :
  load st t (Ptr b off) idx = Ok v st1 ->
  exists o, mem st !! b = Some o /\ off + idx * sizeof t + sizeof t <= size_of o.
Proof.
  unfold load. destruct (locate st t (Ptr b off) idx) as [u|[[b' a] o]] eqn:Hl;
    [discriminate|].
  apply locate_inv in Hl as (off' & [= <- <-] & Hb & -> & _ & Hhi).
  intros _. exists o. split; assumption.
Qed.

Lemma store_ok_size (st st2 : state) (t : ctype) (p : pointer) (idx v : Z)
    (b : block) (o : object) :
  store st t p idx v = Ok tt st2 -> mem st !! b = Some o ->
  exists o', mem st2 !! b = Some o' /\ size_of o' = size_of o.
Proof.
  unfold store. destruct (locate st t p idx) as [u|[[b' a] o'']] eqn:Hl; [discriminate|].
  apply locate_inv in Hl as (off' & _ & Hb' & _).
  intros [= <-] Hb. cbn [set_mem mem].
  destruct (decide (b' = b)) as [->|Hne].
  - rewrite lookup_insert_eq. eexists. split; [reflexivity|]. cbn [size_of]. congruence.
  - rewrite lookup_insert_ne by exact Hne. eauto.
Qed.

(** Fuel beyond the bytes that remain in the source object is never used:
    the copy has stopped, or has read out of bounds, before it runs out. *)
Lemma strcpy_from_more_fuel (fuel : nat) :
  forall (extra : nat) (dst : pointer) (b : block) (off i : Z) (st : state) (o : object),
    mem st !! b = Some o -> size_of o - off - i <= Z.of_nat fuel ->
    strcpy_from (fuel + extra) dst (Ptr b off) i st = strcpy_from fuel dst (Ptr b off) i st.
Proof.
  induction fuel as [|fuel IH]; intros extra dst b off i st o Hb Hfuel.
  - destruct extra as [|extra]; [reflexivity|].
    cbn [Nat.add strcpy_from].
    destruct (overlap_at dst (Ptr b off) i); [reflexivity|].
    destruct (load st Char (Ptr b off) i) as [c st1|u st1] eqn:Hload; [|reflexivity].
    apply load_ok_inv in Hload as (o' & Hb' & Hhi). cbn [sizeof] in Hhi.
    assert (o' = o) as -> by congruence. lia.
  - cbn [Nat.add strcpy_from].
    destruct (overlap_at dst (Ptr b off) i); [reflexivity|].
    pose proof (load_state st Char (Ptr b off) i) as Hst.
    destruct (load st Char (Ptr b off) i) as [c st1|u st1]; [|reflexivity].
    cbn [result_state] in Hst. subst st1.
    destruct (store st Char dst i c) as [[] st2|u st2] eqn:Hstore; [|reflexivity].
    destruct (c =? 0); [reflexivity|].
    destruct (store_ok_size _ _ _ _ _ _ _ _ Hstore Hb) as (o' & Hb' & Hsize).
    rewrite (IH extra dst b off (i + 1) st2 o' Hb') by lia.
    reflexivity.
Qed.

Lemma strcpy_fuel_enough (st : state) (dst src : pointer) (extra : nat) :
  strcpy_from (bytes_from st src + extra) dst src 0 st = strcpy st dst src.
Proof.
  unfold strcpy, bytes_from. destruct src as [|b off].
  - destruct extra; reflexivity.
  - destruct (mem st !! b) as [o|] eqn:Hb.
    + apply (strcpy_from_more_fuel _ extra dst b off 0 st o Hb). lia.
    + destruct extra as [|extra]; [reflexivity|].
      cbn [Nat.add strcpy_from]. destruct (overlap_at dst (Ptr b off) 0); [reflexivity|].
      unfold load, locate. rewrite Hb. reflexivity.
Qed.

(** ** The byte copy of [strcpy] *)

Lemma load_char (st : state) (b : block) (off i : Z) (o : object) (c : Z) :
  mem st !! b = Some o -> 0 <= off + i -> off + i < size_of o ->
  cells o !! (off + i) = Some c ->
  load st Char (Ptr b off) i = Ok c st.
Proof.
  intros Hb Hlo Hhi Hc.
  rewrite (load_initialized st Char b off i o Hb c); cbn [sizeof];
    rewrite ?Z.mul_1_r; (assumption || lia || reflexivity).
Qed.

Lemma store_char (st : state) (b : block) (i : Z) (o : object) (c : Z) :
  mem st !! b = Some o -> 0 <= i -> i < size_of o ->
  store st Char (Ptr b 0) i c =
  Ok tt (set_mem (<[b := Object (storage_of o) (size_of o) (<[i := c]> (cells o))]>
                    (mem st)) st).
Proof.
  intros Hb Hlo Hhi.
  rewrite (store_in_bounds st Char b 0 i o Hb c); cbn [sizeof];
    rewrite ?Z.mul_1_r, ?Z.add_0_l; (lia || reflexivity).
Qed.

Lemma store_char_overflow (st : state) (b : block) (i : Z) (o : object) (c : Z) :
  mem st !! b = Some o -> size_of o <= i ->
  store st Char (Ptr b 0) i c = Fault (OutOfBounds b i (size_of o)) st.
Proof.
  intros Hb Hhi.
  rewrite (store_out_of_bounds st Char b 0 i o Hb c); cbn [sizeof];
    rewrite ?Z.mul_1_r, ?Z.add_0_l; (lia || reflexivity).
Qed.

Lemma set_mem_same (st : state) (b : block) (o : object) :
  mem st !! b = Some o ->
  set_mem (<[b := Object (storage_of o) (size_of o) (cells o)]> (mem st)) st = st.
Proof.
  intros Hb. destruct st as [c m n h out], o as [s z cs]. cbn in *.
  unfold set_mem. cbn. rewrite insert_id by exact Hb. reflexivity.
Qed.

Section Copy.
Variables (bd bs : block) (os : Z).
Hypothesis Hdistinct : bd <> bs.

Lemma no_overlap (i : Z) : overlap_at (Ptr bd 0) (Ptr bs os) i = false.
Proof. unfold overlap_at. rewrite bool_decide_eq_false_2 by exact Hdistinct. reflexivity. Qed.

(** A string that fits is copied whole, NUL included. *)
Lemma strcpy_from_fits (s : list Z) :
  forall (i : Z) (fuel : nat) (st : state) (osrc odst : object),
    mem st !! bs = Some osrc -> mem st !! bd = Some odst ->
    0 <= os + i -> os + i + Z.of_nat (length s) + 1 <= size_of osrc ->
    holds (cells osrc) (os + i) s = true ->
    0 <= i -> i + Z.of_nat (length s) + 1 <= size_of odst ->
    (length s <= fuel)%nat ->
    strcpy_from fuel (Ptr bd 0) (Ptr bs os) i st =
    (copy_events (Ptr bd 0) (Ptr bs os) i (s ++ [0]),
     Ok (Ptr bd 0)
        (set_mem (<[bd := Object (storage_of odst) (size_of odst)
                             (fill i (s ++ [0]) (cells odst))]> (mem st)) st)).
Proof.
  induction s as [|c s IH]; intros i fuel st osrc odst Hs Hd Hlo Hhi Hholds Hi Hroom Hfuel;
    cbn [length holds] in *.
  - apply bool_decide_eq_true in Hholds.
    destruct fuel; cbn [strcpy_from]; rewrite no_overlap;
      rewrite (load_char st bs os i osrc 0 Hs) by (assumption || lia);
      rewrite (store_char st bd i odst 0 Hd) by lia;
      reflexivity.
  - apply andb_true_iff in Hholds as [Hholds Hrest].
    apply andb_true_iff in Hholds as [Hc Hnz].
    apply bool_decide_eq_true in Hc. apply negb_true_iff in Hnz.
    destruct fuel as [|fuel]; [lia|]. cbn [strcpy_from]. rewrite no_overlap.
    rewrite (load_char st bs os i osrc c Hs) by (assumption || lia).
    rewrite (store_char st bd i odst c Hd) by lia.
    rewrite Hnz.
    erewrite IH;
      [ | cbn [set_mem mem]; rewrite lookup_insert_ne by exact Hdistinct; exact Hs
        | cbn [set_mem mem]; apply lookup_insert_eq
        | lia | lia
        | replace (os + (i + 1)) with (os + i + 1) by lia; exact Hrest
        | lia | cbn [size_of]; lia | lia ].
    cbn [app copy_events fill set_mem mem counter next_block heap_avail stdout
         storage_of size_of cells].
    rewrite insert_insert_eq. reflexivity.
Qed.

(** A string that does not fit is copied until the destination is full;
    the next byte is then stored one cell past its end. *)
Lemma strcpy_from_overflows (s : list Z) :
  forall (n : nat) (i : Z) (fuel : nat) (st : state) (osrc odst : object),
    mem st !! bs = Some osrc -> mem st !! bd = Some odst ->
    0 <= os + i -> os + i + Z.of_nat (length s) + 1 <= size_of osrc ->
    holds (cells osrc) (os + i) s = true ->
    0 <= i -> size_of odst = i + Z.of_nat n -> (n < length s + 1)%nat ->
    (length s <= fuel)%nat ->
    strcpy_from fuel (Ptr bd 0) (Ptr bs os) i st =
    (copy_events (Ptr bd 0) (Ptr bs os) i (take (S n) (s ++ [0])),
     Fault (OutOfBounds bd (size_of odst) (size_of odst))
           (set_mem (<[bd := Object (storage_of odst) (size_of odst)
                                (fill i (take n s) (cells odst))]> (mem st)) st)).
Proof.
  induction s as [|c s IH];
    intros n i fuel st osrc odst Hs Hd Hlo Hhi Hholds Hi Hsize Hn Hfuel;
    cbn [length holds] in *.
  - assert (n = O) as -> by lia.
    apply bool_decide_eq_true in Hholds.
    destruct fuel; cbn [strcpy_from]; rewrite no_overlap;
      rewrite (load_char st bs os i osrc 0 Hs) by (assumption || lia);
      rewrite (store_char_overflow st bd i odst 0 Hd) by lia;
      cbn [app take copy_events fill]; rewrite (set_mem_same st bd odst Hd);
      replace (size_of odst) with i by lia; reflexivity.
  - apply andb_true_iff in Hholds as [Hholds Hrest].
    apply andb_true_iff in Hholds as [Hc Hnz].
    apply bool_decide_eq_true in Hc. apply negb_true_iff in Hnz.
    destruct n as [|n].
    + destruct fuel; cbn [strcpy_from]; rewrite no_overlap;
        rewrite (load_char st bs os i osrc c Hs) by (assumption || lia);
        rewrite (store_char_overflow st bd i odst c Hd) by lia;
        cbn [app take copy_events fill]; rewrite (set_mem_same st bd odst Hd);
        replace (size_of odst) with i by lia; reflexivity.
    + destruct fuel as [|fuel]; [lia|]. cbn [strcpy_from]. rewrite no_overlap.
      rewrite (load_char st bs os i osrc c Hs) by (assumption || lia).
      rewrite (store_char st bd i odst c Hd) by lia.
      rewrite Hnz.
      erewrite (IH n);
        [ | cbn [set_mem mem]; rewrite lookup_insert_ne by exact Hdistinct; exact Hs
          | cbn [set_mem mem]; apply lookup_insert_eq
          | lia | lia
          | replace (os + (i + 1)) with (os + i + 1) by lia; exact Hrest
          | lia | cbn [size_of]; lia | lia | lia ].
      cbn [app take copy_events fill set_mem mem counter next_block heap_avail stdout
           storage_of size_of cells].
      rewrite insert_insert_eq. reflexivity.
Qed.
End Copy.

Lemma copy_events_within (b : block) (size : Z) (src : pointer) (bs : list Z) :
  forall i, 0 <= i -> i + Z.of_nat (length bs) <= size ->
    Forall (fun ev => store_within b size ev = true) (copy_events (Ptr b 0) src i bs).
Proof.
  induction bs as [|c bs IH]; intros i Hi Hroom; cbn [copy_events length] in *.
  - constructor.
  - constructor; [reflexivity|]. constructor.
    + cbn [store_within sizeof]. rewrite bool_decide_eq_true_2 by reflexivity.
      apply andb_true_iff. split; [apply Z.leb_le|apply Z.leb_le]; lia.
    + apply IH; lia.
Qed.

Lemma copy_events_store (dst src : pointer) (n : nat) :
  forall (l : list Z) (i c : Z),
    l !! n = Some c ->
    In (EvStore Char dst (i + Z.of_nat n) c) (copy_events dst src i (take (S n) l)).
Proof.
  induction n as [|n IH]; intros [|c0 l] i c Hl; try discriminate Hl.
  - injection Hl as ->. cbn [take copy_events]. right. left.
    f_equal. lia.
  - cbn [take copy_events]. right. right.
    replace (i + Z.of_nat (S n)) with (i + 1 + Z.of_nat n) by lia.
    apply IH. exact Hl.
Qed.

(** ** The calls of [process_string] *)

Lemma cstring_at_inv (st : state) (p : pointer) (s : list Z) :
  cstring_at st p s = true ->
  exists bs os osrc,
    p = Ptr bs os /\ mem st !! bs = Some osrc /\ 0 <= os /\
    os + Z.of_nat (length s) + 1 <= size_of osrc /\
    holds (cells osrc) os s = true.
Proof.
  unfold cstring_at. destruct p as [|bs os]; [discriminate|].
  destruct (mem st !! bs) as [osrc|] eqn:Hsrc; [|discriminate].
  intros H. apply andb_true_iff in H as [H Hholds].
  apply andb_true_iff in H as [Hlo Hhi].
  apply Z.leb_le in Hlo, Hhi.
  exists bs, os, osrc. repeat split; (assumption || reflexivity).
Qed.

Lemma release_automatic (st : state) (b : block) (o : object) :
  mem st !! b = Some o -> storage_of o = Automatic ->
  release st Automatic (Ptr b 0) = Ok tt (set_mem (delete b (mem st)) st).
Proof. intros Hb Hs. unfold release. rewrite Hb, Hs. reflexivity. Qed.

Section ProcessString.
Variables (st : state) (bs : block) (os : Z) (osrc : object) (s : list Z).
Hypothesis Hwf : wf_state st.
Hypothesis Hsrc : mem st !! bs = Some osrc.
Hypothesis Hlo : 0 <= os.
Hypothesis Hhi : os + Z.of_nat (length s) + 1 <= size_of osrc.
Hypothesis Hholds : holds (cells osrc) os s = true.

Lemma buffer_is_new : next_block st <> bs.
Proof. intros Heq. pose proof (fresh_block st Hwf) as Hnew. congruence. Qed.

Lemma source_survives :
  mem (new_object Automatic 10 (heap_avail st) st) !! bs = Some osrc.
Proof.
  cbn [new_object mem].
  rewrite lookup_insert_ne by apply buffer_is_new. exact Hsrc.
Qed.

Lemma enough_fuel :
  (length s <= bytes_from (new_object Automatic 10 (heap_avail st) st) (Ptr bs os))%nat.
Proof. unfold bytes_from. rewrite source_survives. lia. Qed.

Lemma run_process_string_fits :
  Z.of_nat (length s) + 1 <= 10 ->
  run (process_string (Ptr bs os)) st =
  (EvAlloc Automatic 10 (Ptr (next_block st) 0)
     :: copy_events (Ptr (next_block st) 0) (Ptr bs os) 0 (s ++ [0])
     ++ [EvRelease Automatic (Ptr (next_block st) 0)],
   Returned tt (State (counter st) (mem st) (S (next_block st))
                      (heap_avail st) (stdout st))).
Proof.
  intros Hfits. unfold process_string. exec.
  eapply run_vis_ok; [reflexivity|]. cbn [bind].
  eapply run_vis_events.
  { cbn [handle]. unfold strcpy.
    apply (strcpy_from_fits (next_block st) bs os buffer_is_new s 0 _ _ osrc
             (Object Automatic 10 ∅));
      [ apply source_survives | apply new_object_lookup
      | lia | lia | rewrite Z.add_0_r; exact Hholds | lia | cbn [size_of]; lia
      | apply enough_fuel ]. }
  cbn [bind]. eapply run_vis_ok; [|apply run_ret].
  cbn [handle]. erewrite release_automatic;
    [ | cbn [set_mem mem]; apply lookup_insert_eq | reflexivity ].
  cbn [new_object set_mem mem counter next_block heap_avail stdout
       storage_of size_of cells].
  rewrite insert_insert_eq, delete_insert_id by (apply fresh_block, Hwf).
  reflexivity.
Qed.

Lemma run_process_string_overflows :
  10 < Z.of_nat (length s) + 1 ->
  run (process_string (Ptr bs os)) st =
  (EvAlloc Automatic 10 (Ptr (next_block st) 0)
     :: copy_events (Ptr (next_block st) 0) (Ptr bs os) 0 (take 11 (s ++ [0])),
   Undefined (OutOfBounds (next_block st) 10 10)
     (State (counter st)
            (<[next_block st := Object Automatic 10 (fill 0 (take 10 s) ∅)]> (mem st))
            (S (next_block st)) (heap_avail st) (stdout st))).
Proof.
  intros Hlong. unfold process_string. exec.
  eapply run_vis_ok; [reflexivity|]. cbn [bind].
  eapply run_vis_fault. cbn [handle]. unfold strcpy.
  rewrite (strcpy_from_overflows (next_block st) bs os buffer_is_new s 10 0 _ _ osrc
             (Object Automatic 10 ∅));
    [ | apply source_survives | apply new_object_lookup
      | lia | lia | rewrite Z.add_0_r; exact Hholds | lia | cbn [size_of]; lia
      | lia | apply enough_fuel ].
  cbn [new_object set_mem mem counter next_block heap_avail stdout
       storage_of size_of cells].
  rewrite insert_insert_eq. reflexivity.
Qed.
End ProcessString.

(** ** Threads calling [race_condition] *)

Lemma step_get (T : list (prog unit)) (i : nat) (st : state) (k : Z -> prog unit) :
  T !! i = Some (Vis (GetGlobal global_counter) k) ->
  step (T, st) (<[i := k (counter st)]> T, st).
Proof. intros Hi. eapply step_thread; [exact Hi|reflexivity]. Qed.

Lemma step_set (T : list (prog unit)) (i : nat) (st : state) (v : Z)
    (k : unit -> prog unit) :
  T !! i = Some (Vis (SetGlobal global_counter v) k) ->
  step (T, st) (<[i := k tt]> T, set_counter v st).
Proof. intros Hi. eapply step_thread; [exact Hi|reflexivity]. Qed.

(** After its read of [v], a call of [race_condition] is about to write
    [v + 1]. *)
Lemma race_condition_after_read (v : Z) :
  int_fits (v + 1) = true ->
  bind (Ret v) (fun old =>
    bind (int_add old 1) (fun new => trigger (SetGlobal global_counter new))) =
  trigger (SetGlobal global_counter (v + 1)).
Proof.
  intros Hfits. cbn [bind]. unfold int_add. rewrite (wrap_int_fits _ Hfits). reflexivity.
Qed.

(** Whatever the counter holds, the read is followed by the write of the
    wrapped sum. *)
Lemma step_race_condition_read_wraps (T : list (prog unit)) (i : nat) (st : state) :
  T !! i = Some race_condition ->
  step (T, st)
       (<[i := trigger (SetGlobal global_counter (wrap_int (counter st + 1)))]> T, st).
Proof. intros Hi. apply (step_get T i st _ Hi). Qed.

Lemma step_race_condition_read (T : list (prog unit)) (i : nat) (st : state) :
  int_fits (counter st + 1) = true ->
  T !! i = Some race_condition ->
  step (T, st) (<[i := trigger (SetGlobal global_counter (counter st + 1))]> T, st).
Proof.
  intros Hfits Hi. rewrite <- (race_condition_after_read _ Hfits).
  apply (step_get T i st _ Hi).
Qed.

Lemma int_fits_succ (v : Z) :
  int_fits v = true -> v < INT_MAX -> int_fits (v + 1) = true.
Proof.
  unfold int_fits. intros Hint Hmax. apply andb_true_iff in Hint as [Hlo Hhi].
  apply Z.leb_le in Hlo, Hhi. apply andb_true_iff. split; apply Z.leb_le; lia.
Qed.

(** Two calls interleaved so that both read before either writes: one of the
    two increments is lost. *)
Lemma lost_update_wraps (st : state) :
  rtc step ([race_condition; race_condition], st)
           ([Ret tt; Ret tt], set_counter (wrap_int (counter st + 1)) st).
Proof.
  eapply rtc_l; [apply (step_race_condition_read_wraps _ 0%nat st); reflexivity|].
  eapply rtc_l; [apply (step_race_condition_read_wraps _ 1%nat st); reflexivity|].
  eapply rtc_l; [apply (step_set _ 0%nat st (wrap_int (counter st + 1))); reflexivity|].
  eapply rtc_l; [apply (step_set _ 1%nat _ (wrap_int (counter st + 1))); reflexivity|].
  apply rtc_refl.
Qed.

Lemma lost_update (st : state) :
  int_fits (counter st + 1) = true ->
  rtc step ([race_condition; race_condition], st)
           ([Ret tt; Ret tt], set_counter (counter st + 1) st).
Proof.
  intros Hfits. pose proof (lost_update_wraps st) as Hlost.
  rewrite (wrap_int_fits _ Hfits) in Hlost. exact Hlost.
Qed.

(** ** Execution past an indeterminate read *)







(** * Claims *)

(** C1. [process_string] copies its input into [char buffer[10]] without
    looking at its length: for every NUL-terminated input of more than 9
    characters the call issues, after the allocation, nothing but the copy,
    fills the ten cells of the buffer and then stores the eleventh byte at
    index 10, past the end of the buffer. *)
Theorem process_string_overflows_buffer (st : state) (input : pointer) (s : list Z)
    (Hwf : wf_state st) (Hstr : cstring_at st input s = true)
    (Hlong : 10 < Z.of_nat (length s) + 1) :
  exists st' c,
    run (process_string input) st =
      (EvAlloc Automatic 10 (Ptr (next_block st) 0)
         :: copy_events (Ptr (next_block st) 0) input 0 (take 11 (s ++ [0])),
       Undefined (OutOfBounds (next_block st) 10 10) st') /\
    mem st' !! next_block st = Some (Object Automatic 10 (fill 0 (take 10 s) ∅)) /\
    In (EvStore Char (Ptr (next_block st) 0) 10 c) (trace (process_string input) st) /\
    store_within (next_block st) 10 (EvStore Char (Ptr (next_block st) 0) 10 c) = false.
Proof.
  destruct (cstring_at_inv st input s Hstr) as (bs & os & osrc & -> & Hsrc & Hlo & Hhi & Hholds).
  pose proof (run_process_string_overflows st bs os osrc s Hwf Hsrc Hlo Hhi Hholds Hlong)
    as Hrun.
  destruct (lookup_lt_is_Some_2 (s ++ [0]) 10) as [c Hc].
  { rewrite length_app. cbn [length]. lia. }
  eexists _, c. split; [exact Hrun|split; [|split]].
  - cbn [mem]. apply lookup_insert_eq.
  - unfold trace. rewrite Hrun. cbn [fst]. right.
    apply (copy_events_store _ _ 10 (s ++ [0]) 0 c Hc).
  - cbn [store_within sizeof]. rewrite bool_decide_eq_true_2 by reflexivity. reflexivity.
Qed.

Lemma process_string_overflows_buffer_witness :
  exists st',
    result_of (process_string (Ptr 0%nat 0))
              (caller_state [48; 49; 50; 51; 52; 53; 54; 55; 56; 57] 0)
    = Undefined (OutOfBounds 1%nat 10 10) st'.
Proof.
  destruct (process_string_overflows_buffer
              (caller_state [48; 49; 50; 51; 52; 53; 54; 55; 56; 57] 0) (Ptr 0%nat 0)
              [48; 49; 50; 51; 52; 53; 54; 55; 56; 57]) as (st' & c & Hrun & _).
  - split; [reflexivity|]. apply map_Forall_singleton. cbn. lia.
  - vm_compute. reflexivity.
  - cbn. lia.
  - exists st'. unfold result_of. rewrite Hrun. reflexivity.
Defined.

(** C2. On every call, [BAD_FUNCTION_NAME] reads its local [x] (for the
    condition [x > 0]) while [x] is still indeterminate: the call issues one
    store, to [timeout], and none to [x], before the read, and the read is an
    uninitialised one. *)
Theorem BAD_FUNCTION_NAME_reads_x_uninitialized (st : state) :
  exists st',
    run BAD_FUNCTION_NAME st =
      ([EvAlloc Automatic 4 (Ptr (next_block st) 0);
        EvStore Int (Ptr (next_block st) 0) 0 3600;
        EvAlloc Automatic 4 (Ptr (S (next_block st)) 0);
        EvLoad Int (Ptr (S (next_block st)) 0) 0],
       Undefined (UninitializedRead (S (next_block st)) 0) st') /\
    Forall (fun ev => stores_to (S (next_block st)) ev = false)
           (trace BAD_FUNCTION_NAME st).
Proof.
  assert (exists st', run BAD_FUNCTION_NAME st =
      ([EvAlloc Automatic 4 (Ptr (next_block st) 0);
        EvStore Int (Ptr (next_block st) 0) 0 3600;
        EvAlloc Automatic 4 (Ptr (S (next_block st)) 0);
        EvLoad Int (Ptr (S (next_block st)) 0) 0],
       Undefined (UninitializedRead (S (next_block st)) 0) st')) as [st' Hrun].
  { eexists. unfold BAD_FUNCTION_NAME. exec.
    eapply run_vis_ok; [reflexivity|].
    eapply run_vis_ok.
    { cbn [handle].
      erewrite store_in_bounds by (try apply new_object_lookup; cbn; lia).
      reflexivity. }
    eapply run_vis_ok; [reflexivity|].
    eapply run_vis_fault. cbn [handle].
    erewrite load_indeterminate;
      [reflexivity|apply new_object_lookup|cbn; lia|cbn; lia|apply lookup_empty]. }
  exists st'. split; [exact Hrun|].
  unfold trace. rewrite Hrun. cbn [fst].
  repeat constructor. cbn [stores_to]. apply bool_decide_eq_false. lia.
Qed.

(** C3. [race_condition] increments [global_counter] with two plain accesses,
    a read and then a write, and nothing else: no operation of the call locks
    or orders them.  Whenever two different threads of a pool are calling it,
    whatever the counter holds, an interleaving reaches a state where one
    thread is about to write the counter while the other is about to read
    it, a data race; and two concurrent calls can end with the counter raised
    once only. *)
Theorem race_condition_data_race (st : state) (T : list (prog unit)) (i j : nat)
    (Hi : T !! i = Some race_condition) (Hj : T !! j = Some race_condition)
    (Hij : i <> j) :
  data_race T st /\
  trace race_condition st =
    [EvGlobalRead global_counter;
     EvGlobalWrite global_counter (wrap_int (counter st + 1))] /\
  rtc step ([race_condition; race_condition], st)
           ([Ret tt; Ret tt], set_counter (wrap_int (counter st + 1)) st).
Proof.
  split; [|split].
  - exists (<[i := trigger (SetGlobal global_counter (wrap_int (counter st + 1)))]> T), st.
    split.
    + apply rtc_once. apply step_race_condition_read_wraps. exact Hi.
    + exists i, j, (trigger (SetGlobal global_counter (wrap_int (counter st + 1)))),
        race_condition, (Access global_counter true), (Access global_counter false).
      split; [exact Hij|]. split.
      { apply list_lookup_insert_eq. apply (lookup_lt_Some _ _ _ Hi). }
      split.
      { rewrite list_lookup_insert_ne by exact Hij. exact Hj. }
      repeat split.
  - unfold trace. rewrite run_race_condition_wraps. reflexivity.
  - apply lost_update_wraps.
Qed.

Lemma race_condition_data_race_witness :
  data_race [race_condition; race_condition] (set_counter INT_MAX (initial_state 0)) /\
  data_race [race_condition; race_condition] (initial_state 0).
Proof.
  split.
  - apply (race_condition_data_race (set_counter INT_MAX (initial_state 0))
             [race_condition; race_condition] 0%nat 1%nat); try reflexivity.
    lia.
  - apply (race_condition_data_race (initial_state 0)
             [race_condition; race_condition] 0%nat 1%nat); try reflexivity.
    lia.
Defined.

(** C4. [memory_issue] does not check the result of [malloc]: in every
    execution the store [ptr[0] = 10] is issued right after the allocation,
    through whatever pointer it returned; when the allocation fails that
    pointer is null and the call ends in a null-pointer store. *)
Theorem memory_issue_stores_through_null (st : state)
    (Hfail : heap_avail st < 100 * sizeof Int) :
  run memory_issue st =
    ([EvAlloc Dynamic 400 NULL; EvStore Int NULL 0 10], Undefined NullDereference st) /\
  (forall st0, exists p,
      trace memory_issue st0 = [EvAlloc Dynamic 400 p; EvStore Int p 0 10]).
Proof.
  split; [apply run_memory_issue_refused; exact Hfail|apply trace_memory_issue].
Qed.

Lemma memory_issue_stores_through_null_witness :
  heap_avail (initial_state 399) < 100 * sizeof Int /\
  run memory_issue (initial_state 399) =
    ([EvAlloc Dynamic 400 NULL; EvStore Int NULL 0 10],
     Undefined NullDereference (initial_state 399)).
Proof.
  split; [cbn; lia|].
  apply (memory_issue_stores_through_null (initial_state 399)). cbn; lia.
Defined.

(** C5. [memory_issue] leaks its allocation: whenever the heap serves the
    request, the call returns with the new block of [100 * sizeof(int)] bytes
    still live and the heap [400] bytes poorer, and no execution of the
    function, served or not, issues a release. *)
Theorem memory_issue_never_frees (st : state)
    (Hwf : wf_state st) (Hok : 100 * sizeof Int <= heap_avail st) :
  exists st' c,
    result_of memory_issue st = Returned tt st' /\
    mem st !! next_block st = None /\
    mem st' !! next_block st = Some (Object Dynamic (100 * sizeof Int) c) /\
    heap_avail st' = heap_avail st - 100 * sizeof Int /\
    (forall st0, Forall (fun ev => is_release ev = false) (trace memory_issue st0)).
Proof.
  exists (after_memory_issue st), (<[0 := 10]> ∅).
  split; [|split; [|split; [|split]]].
  - unfold result_of. rewrite run_memory_issue_served by exact Hok. reflexivity.
  - apply fresh_block, Hwf.
  - cbn [after_memory_issue mem]. apply lookup_insert_eq.
  - reflexivity.
  - intros st0. destruct (trace_memory_issue st0) as [p ->].
    repeat constructor.
Qed.

Lemma memory_issue_never_frees_witness :
  exists st' c,
    result_of memory_issue (initial_state 1000) = Returned tt st' /\
    mem st' !! 0%nat = Some (Object Dynamic 400 c) /\
    heap_avail st' = 600.
Proof.
  destruct (memory_issue_never_frees (initial_state 1000)) as (st' & c & H1 & _ & H3 & H4 & _).
  - split; [reflexivity|apply map_Forall_empty].
  - cbn; lia.
  - exists st', c. auto.
Defined.

(** C6, as amended.  In a sequential execution, a call of [race_condition]
    with [global_counter] at [v] below [INT_MAX] reads the counter, writes
    [v + 1] to it and returns; nothing else of the state changes. *)
Theorem race_condition_increments (st : state)
    (Hint : int_fits (counter st) = true) (Hmax : counter st < INT_MAX) :
  exists st',
    run race_condition st =
      ([EvGlobalRead global_counter; EvGlobalWrite global_counter (counter st + 1)],
       Returned tt st') /\
    counter st' = counter st + 1 /\
    mem st' = mem st /\ next_block st' = next_block st /\
    heap_avail st' = heap_avail st /\ stdout st' = stdout st.
Proof.
  exists (set_counter (counter st + 1) st). split; [|repeat split].
  apply run_race_condition, int_fits_succ; assumption.
Qed.

Lemma race_condition_increments_witness :
  exists st',
    result_of race_condition (initial_state 0) = Returned tt st' /\ counter st' = 1.
Proof.
  destruct (race_condition_increments (initial_state 0)) as (st' & H1 & H2 & _).
  - reflexivity.
  - reflexivity.
  - exists st'. split; [unfold result_of; rewrite H1; reflexivity|exact H2].
Defined.

(** C6, as stated, fails when the counter is at [INT_MAX]: the increment
    leaves the range of [int], and the call does not return with [v + 1]. *)
Lemma race_condition_overflows_at_INT_MAX :
  ~ exists st',
      result_of race_condition (set_counter INT_MAX (initial_state 0)) = Returned tt st' /\
      counter st' = INT_MAX + 1.
Proof.
  intros (st' & Hres & Hcounter). unfold result_of in Hres.
  rewrite run_race_condition_wraps in Hres. injection Hres as <-.
  vm_compute in Hcounter. discriminate Hcounter.
Qed.




(** C9. For every NUL-terminated input of at most 9 characters, every store
    of [process_string] falls inside the ten bytes of [buffer], and the call
    returns with the counter, every object the caller had, the heap and the
    output as they were before the call. *)
Theorem process_string_short_input (st : state) (input : pointer) (s : list Z)
    (Hwf : wf_state st) (Hstr : cstring_at st input s = true)
    (Hshort : Z.of_nat (length s) + 1 <= 10) :
  run (process_string input) st =
    (EvAlloc Automatic 10 (Ptr (next_block st) 0)
       :: copy_events (Ptr (next_block st) 0) input 0 (s ++ [0])
       ++ [EvRelease Automatic (Ptr (next_block st) 0)],
     Returned tt (State (counter st) (mem st) (S (next_block st))
                        (heap_avail st) (stdout st))) /\
  Forall (fun ev => store_within (next_block st) 10 ev = true)
         (trace (process_string input) st).
Proof.
  destruct (cstring_at_inv st input s Hstr) as (bs & os & osrc & -> & Hsrc & Hlo & Hhi & Hholds).
  pose proof (run_process_string_fits st bs os osrc s Hwf Hsrc Hlo Hhi Hholds Hshort)
    as Hrun.
  split; [exact Hrun|].
  unfold trace. rewrite Hrun. cbn [fst].
  constructor; [reflexivity|]. apply Forall_app. split.
  - apply copy_events_within; [lia|]. rewrite length_app. cbn [length]. lia.
  - repeat constructor.
Qed.

Lemma process_string_short_input_witness :
  result_of (process_string (Ptr 0%nat 0)) (caller_state [72; 105] 64)
  = Returned tt (State 0 (mem (caller_state [72; 105] 64)) 2%nat 64 []).
Proof.
  destruct (process_string_short_input (caller_state [72; 105] 64) (Ptr 0%nat 0) [72; 105])
    as [Hrun _].
  - split; [reflexivity|]. apply map_Forall_singleton. cbn. lia.
  - vm_compute. reflexivity.
  - cbn. lia.
  - unfold result_of. rewrite Hrun. reflexivity.
Defined.

(** C10. When the allocation succeeds, [memory_issue] performs exactly one
    store, of the value [10] to element [0] of the new array of [100] ints:
    on return element [0] holds [10] and every other element is still
    indeterminate. *)
Theorem memory_issue_writes_only_first (st : state)
    (Hok : 100 * sizeof Int <= heap_avail st) :
  exists st',
    run memory_issue st =
      ([EvAlloc Dynamic 400 (Ptr (next_block st) 0);
        EvStore Int (Ptr (next_block st) 0) 0 10],
       Returned tt st') /\
    mem st' !! next_block st = Some (Object Dynamic (100 * sizeof Int) {[0 := 10]}) /\
    (forall i, 0 <= i < 100 ->
       load st' Int (Ptr (next_block st) 0) i =
       if i =? 0 then Ok 10 st'
       else Fault (UninitializedRead (next_block st) (0 + i * sizeof Int)) st').
Proof.
  exists (after_memory_issue st). split; [|split].
  - apply run_memory_issue_served. exact Hok.
  - cbn [after_memory_issue mem]. rewrite lookup_insert_eq, insert_empty. reflexivity.
  - intros i Hi.
    assert (mem (after_memory_issue st) !! next_block st
            = Some (Object Dynamic 400 (<[0 := 10]> ∅))) as Hb
      by (cbn [after_memory_issue mem]; apply lookup_insert_eq).
    destruct (Z.eqb_spec i 0) as [->|Hne].
    + apply (load_initialized _ _ _ _ _ _ Hb); cbn; try lia. apply lookup_insert_eq.
    + apply (load_indeterminate _ _ _ _ _ _ Hb); cbn [size_of cells sizeof]; try lia.
      rewrite lookup_insert_ne by lia. apply lookup_empty.
Qed.

Lemma memory_issue_writes_only_first_witness :
  exists st',
    result_of memory_issue (initial_state 400) = Returned tt st' /\
    load st' Int (Ptr 0%nat 0) 0 = Ok 10 st' /\
    load st' Int (Ptr 0%nat 0) 99 = Fault (UninitializedRead 0%nat 396) st'.
Proof.
  destruct (memory_issue_writes_only_first (initial_state 400)) as (st' & H1 & _ & H3).
  - cbn; lia.
  - exists st'. split; [|split].
    + unfold result_of. rewrite H1. reflexivity.
    + apply (H3 0). lia.
    + apply (H3 99). lia.
Defined.

(** * Further properties *)

(** ** Sequencing *)

Lemma run_bind {A B : Type} (p : prog A) (f : A -> prog B) :
  forall st,
    run (bind p f) st =
    match run p st with
    | (evs, Returned a st') => (evs ++ trace (f a) st', result_of (f a) st')
    | (evs, Undefined u st') => (evs, Undefined u st')
    end.
Proof.
  induction p as [a|X e k IH]; intros st; cbn [bind run].
  - unfold trace, result_of. destruct (run (f a) st). reflexivity.
  - destruct (handle e st) as [evs [x st'|u st']]; [|reflexivity].
    rewrite IH. destruct (run (k x) st') as [evs' [a st''|u st'']]; [|reflexivity].
    rewrite app_assoc. reflexivity.
Qed.

Lemma result_of_then (p q : prog unit) (st st' : state) :
  result_of p st = Returned tt st' ->
  result_of (p;; q) st = result_of q st'.
Proof.
  unfold result_of at 1 2. rewrite run_bind.
  destruct (run p st) as [evs [[] st1|u st1]]; cbn [snd]; [|discriminate].
  intros [= ->]. reflexivity.
Qed.

Lemma result_of_stops (p q : prog unit) (st st' : state) (u : ub) :
  result_of p st = Undefined u st' ->
  result_of (p;; q) st = Undefined u st'.
Proof.
  unfold result_of. rewrite run_bind.
  destruct (run p st) as [evs [[] st1|u1 st1]]; cbn [snd]; [discriminate|].
  intros [= -> ->]. reflexivity.
Qed.


Lemma set_counter_same (st : state) : set_counter (counter st) st = st.
Proof. destruct st. reflexivity. Qed.

Lemma int_fits_between (lo hi z : Z) :
  int_fits lo = true -> int_fits hi = true -> lo <= z <= hi -> int_fits z = true.
Proof.
  unfold int_fits. intros Hlo Hhi Hz.
  apply andb_true_iff in Hlo as [Hlo _]. apply andb_true_iff in Hhi as [_ Hhi].
  apply Z.leb_le in Hlo, Hhi. apply andb_true_iff. split; apply Z.leb_le; lia.
Qed.

Lemma int_fits_bounds (z : Z) : int_fits z = true <-> INT_MIN <= z <= INT_MAX.
Proof.
  unfold int_fits. rewrite andb_true_iff, !Z.leb_le. reflexivity.
Qed.



(** X2. Past [INT_MAX] the counter wraps around: every call of
    [race_condition] returns, the call that finds the counter at [INT_MAX]
    stores [INT_MIN], and after [n] calls in a row the counter holds
    [v + n] brought back into the range of [int] modulo [2 ^ 32]. *)
Theorem race_condition_calls_wrap (n : nat) :
  forall (st : state),
    int_fits (counter st) = true ->
    result_of (calls n race_condition) st
      = Returned tt (set_counter (wrap_int (counter st + Z.of_nat n)) st) /\
    (counter st = INT_MAX ->
       result_of race_condition st = Returned tt (set_counter INT_MIN st)).
Proof.
  induction n as [|n IH]; intros st Hint.
  - split.
    + cbn [calls Z.of_nat]. rewrite Z.add_0_r, (wrap_int_fits _ Hint), set_counter_same.
      reflexivity.
    + intros Hmax. unfold result_of. rewrite run_race_condition_wraps, Hmax. reflexivity.
  - split.
    + assert (result_of race_condition st
              = Returned tt (set_counter (wrap_int (counter st + 1)) st)) as Hres
        by (unfold result_of; rewrite run_race_condition_wraps; reflexivity).
      destruct (IH (set_counter (wrap_int (counter st + 1)) st)) as [IHres _].
      { apply int_fits_wrap. }
      cbn [calls]. rewrite (result_of_then _ _ _ _ Hres), IHres.
      cbn [set_counter counter mem next_block heap_avail stdout].
      rewrite wrap_int_add.
      replace (counter st + 1 + Z.of_nat n) with (counter st + Z.of_nat (S n)) by lia.
      reflexivity.
    + intros Hmax. unfold result_of. rewrite run_race_condition_wraps, Hmax. reflexivity.
Qed.

Lemma race_condition_calls_wrap_witness :
  result_of (calls 3 race_condition) (set_counter (INT_MAX - 1) (initial_state 0))
  = Returned tt (set_counter (INT_MIN + 1) (initial_state 0)).
Proof.
  apply (race_condition_calls_wrap 3 (set_counter (INT_MAX - 1) (initial_state 0))).
  reflexivity.
Defined.

(** ** Repeated allocation *)

Lemma result_of_memory_issue_served (st : state) :
  400 <= heap_avail st ->
  result_of memory_issue st = Returned tt (after_memory_issue st).
Proof. intros Hok. unfold result_of. rewrite run_memory_issue_served by exact Hok. reflexivity. Qed.

(** X3. The leak of [memory_issue] adds up: [n] calls in a row that the heap
    can serve all return, and leave [n] more live blocks of [400] bytes, each
    with [10] in element [0], the heap [400 * n] bytes smaller, and every
    object that was there before untouched. *)
Theorem memory_issue_calls_leak (n : nat) :
  forall (st : state),
    400 * Z.of_nat n <= heap_avail st ->
    exists st',
      result_of (calls n memory_issue) st = Returned tt st' /\
      heap_avail st' = heap_avail st - 400 * Z.of_nat n /\
      next_block st' = (next_block st + n)%nat /\
      counter st' = counter st /\
      (forall j, (j < n)%nat ->
         mem st' !! (next_block st + j)%nat = Some (Object Dynamic 400 {[0 := 10]})) /\
      (forall b, (b < next_block st)%nat -> mem st' !! b = mem st !! b).
Proof.
  induction n as [|n IH]; intros st Hheap.
  - exists st. cbn [calls Z.of_nat]. repeat split; try reflexivity; intros; lia.
  - destruct (IH (after_memory_issue st)) as (st' & Hres & Hh & Hn & Hc & Hnew & Hold).
    { cbn [after_memory_issue heap_avail]. lia. }
    cbn [after_memory_issue heap_avail next_block counter mem] in Hh, Hn, Hc, Hnew, Hold.
    exists st'. cbn [calls].
    rewrite (result_of_then _ _ _ _ (result_of_memory_issue_served st ltac:(lia))).
    split; [exact Hres|]. split; [lia|]. split; [lia|]. split; [exact Hc|]. split.
    + intros j Hj. destruct j as [|j].
      * rewrite Nat.add_0_r, Hold by lia.
        rewrite lookup_insert_eq, insert_empty. reflexivity.
      * replace (next_block st + S j)%nat with (S (next_block st) + j)%nat by lia.
        apply Hnew. lia.
    + intros b Hb. rewrite Hold by lia. apply lookup_insert_ne. lia.
Qed.

Lemma memory_issue_calls_leak_witness :
  exists st',
    result_of (calls 2 memory_issue) (initial_state 1000) = Returned tt st' /\
    heap_avail st' = 200 /\
    mem st' !! 1%nat = Some (Object Dynamic 400 {[0 := 10]}).
Proof.
  destruct (memory_issue_calls_leak 2 (initial_state 1000))
    as (st' & Hres & Hh & _ & _ & Hnew & _).
  - now vm_compute.
  - exists st'. split; [exact Hres|]. split; [exact Hh|]. apply (Hnew 1%nat). lia.
Defined.

(** X4. Since nothing is ever released, calls of [memory_issue] in a row
    exhaust the heap: when the heap holds fewer than [400 * n] bytes, [n]
    calls do not all return, the run stops at a store through the null
    pointer, with fewer than [400] bytes left and the counter untouched. *)
Theorem memory_issue_calls_exhaust (n : nat) :
  forall (st : state),
    0 <= heap_avail st -> heap_avail st < 400 * Z.of_nat n ->
    exists st',
      result_of (calls n memory_issue) st = Undefined NullDereference st' /\
      0 <= heap_avail st' < 400 /\
      counter st' = counter st.
Proof.
  induction n as [|n IH]; intros st Hnonneg Hheap.
  - cbn [Z.of_nat] in Hheap. lia.
  - cbn [calls]. destruct (Z.lt_ge_cases (heap_avail st) 400) as [Hfail|Hok].
    + exists st. split; [|split; [lia|reflexivity]].
      apply result_of_stops. unfold result_of.
      rewrite run_memory_issue_refused by exact Hfail. reflexivity.
    + destruct (IH (after_memory_issue st)) as (st' & Hres & Hh & Hc).
      { cbn [after_memory_issue heap_avail]. lia. }
      { cbn [after_memory_issue heap_avail]. lia. }
      exists st'.
      rewrite (result_of_then _ _ _ _ (result_of_memory_issue_served st Hok)).
      split; [exact Hres|]. split; [exact Hh|exact Hc].
Qed.

Lemma memory_issue_calls_exhaust_witness :
  exists st',
    result_of (calls 3 memory_issue) (initial_state 1000) = Undefined NullDereference st' /\
    0 <= heap_avail st' < 400.
Proof.
  destruct (memory_issue_calls_exhaust 3 (initial_state 1000)) as (st' & Hres & Hh & _).
  - now vm_compute.
  - now vm_compute.
  - exists st'. split; assumption.
Defined.

(** ** Every interleaving *)

Lemma step_inv (T T' : list (prog unit)) (st st' : state) :
  step (T, st) (T', st') ->
  exists i p p', T !! i = Some p /\ thread_step p st = Some (p', st') /\
                 T' = <[i := p']> T.
Proof.
  inversion 1 as [T0 st0 st1 i X e k x evs Hi He]; subst.
  exists i, (Vis e k), (k x). split; [exact Hi|]. split; [|reflexivity].
  cbn [thread_step]. rewrite He. reflexivity.
Qed.









Lemma thread_step_not_read (st0 : state) (c : Z) :
  int_fits (c + 1) = true ->
  thread_step (thread_at NotRead) (set_counter c st0)
  = Some (thread_at (Pending (c + 1)), set_counter c st0).
Proof.
  intros Hfits. cbn [thread_at]. unfold race_condition, thread_step. exec.
  cbn [bind set_counter counter]. unfold int_add.
  rewrite (wrap_int_fits _ Hfits). reflexivity.
Qed.

Lemma thread_step_pending (st0 : state) (c w : Z) :
  thread_step (thread_at (Pending w)) (set_counter c st0)
  = Some (thread_at Done, set_counter w st0).
Proof. reflexivity. Qed.

Lemma thread_at_done (s : progress) : thread_at s = Ret tt -> s = Done.
Proof. destruct s; [discriminate|discriminate|reflexivity]. Qed.

(** The combinations of [two_calls_at] are closed under every step. *)
Lemma two_calls_step (st0 : state) (v : Z) (T T' : list (prog unit)) (st st' : state) :
  int_fits v = true -> v + 2 <= INT_MAX ->
  (exists s0 s1 c, T = [thread_at s0; thread_at s1] /\ st = set_counter c st0 /\
                   two_calls_at v s0 s1 c) ->
  step (T, st) (T', st') ->
  exists s0 s1 c, T' = [thread_at s0; thread_at s1] /\ st' = set_counter c st0 /\
                  two_calls_at v s0 s1 c.
Proof.
  intros Hint Hmax (s0 & s1 & c & -> & -> & Hat) Hstep.
  assert (int_fits (v + 1) = true) as Hf1
    by (apply int_fits_bounds in Hint; apply int_fits_bounds; lia).
  assert (int_fits (v + 1 + 1) = true) as Hf2
    by (apply int_fits_bounds in Hint; apply int_fits_bounds; lia).
  apply step_inv in Hstep as (i & p & p' & Hi & Hp & ->).
  destruct i as [|[|i]]; cbn in Hi; [| |discriminate]; injection Hi as <-.
  - destruct s0 as [|w0|].
    + assert (c = v \/ c = v + 1) as Hc by (destruct s1; cbn in Hat; lia).
      rewrite thread_step_not_read in Hp by (destruct Hc as [-> | ->]; assumption).
      injection Hp as <- <-.
      exists (Pending (c + 1)), s1, c. split; [reflexivity|]. split; [reflexivity|].
      destruct s1; cbn in Hat |- *; lia.
    + rewrite thread_step_pending in Hp. injection Hp as <- <-.
      exists Done, s1, w0. split; [reflexivity|]. split; [reflexivity|].
      destruct s1; cbn in Hat |- *; lia.
    + discriminate Hp.
  - destruct s1 as [|w1|].
    + assert (c = v \/ c = v + 1) as Hc by (destruct s0; cbn in Hat; lia).
      rewrite thread_step_not_read in Hp by (destruct Hc as [-> | ->]; assumption).
      injection Hp as <- <-.
      exists s0, (Pending (c + 1)), c. split; [reflexivity|]. split; [reflexivity|].
      destruct s0; cbn in Hat |- *; lia.
    + rewrite thread_step_pending in Hp. injection Hp as <- <-.
      exists s0, Done, w1. split; [reflexivity|]. split; [reflexivity|].
      destruct s0; cbn in Hat |- *; lia.
    + discriminate Hp.
Qed.

Lemma sequential_schedule (st : state) :
  int_fits (counter st + 1) = true -> int_fits (counter st + 1 + 1) = true ->
  rtc step ([race_condition; race_condition], st)
           ([Ret tt; Ret tt], set_counter (counter st + 2) st).
Proof.
  intros Hf1 Hf2.
  eapply rtc_l; [apply (step_race_condition_read _ 0%nat st Hf1); reflexivity|].
  eapply rtc_l; [apply (step_set _ 0%nat st (counter st + 1)); reflexivity|].
  eapply rtc_l;
    [apply (step_race_condition_read _ 1%nat (set_counter (counter st + 1) st) Hf2);
     reflexivity|].
  eapply rtc_l; [apply (step_set _ 1%nat _ (counter st + 1 + 1)); reflexivity|].
  cbn [insert list_insert set_counter counter mem next_block heap_avail stdout].
  replace (counter st + 1 + 1) with (counter st + 2) by lia.
  apply rtc_refl.
Qed.

(** X6. Two concurrent calls of [race_condition], started with the counter
    at [v], can finish in exactly two ways: with the counter at [v + 2], or,
    one increment lost, at [v + 1].  Every interleaving that runs both calls
    to their return ends in one of the two, with nothing but the counter
    changed, and each of the two is the end of some interleaving. *)
Theorem two_calls_end_at_one_or_two_more (st : state)
    (Hint : int_fits (counter st) = true) (Hmax : counter st + 2 <= INT_MAX) :
  (forall st',
      rtc step ([race_condition; race_condition], st) ([Ret tt; Ret tt], st') ->
      st' = set_counter (counter st + 1) st \/ st' = set_counter (counter st + 2) st) /\
  rtc step ([race_condition; race_condition], st)
           ([Ret tt; Ret tt], set_counter (counter st + 1) st) /\
  rtc step ([race_condition; race_condition], st)
           ([Ret tt; Ret tt], set_counter (counter st + 2) st).
Proof.
  assert (int_fits (counter st + 1) = true) as Hf1
    by (apply int_fits_bounds in Hint; apply int_fits_bounds; lia).
  assert (int_fits (counter st + 1 + 1) = true) as Hf2
    by (apply int_fits_bounds in Hint; apply int_fits_bounds; lia).
  split; [|split; [apply lost_update; exact Hf1|apply sequential_schedule; assumption]].
  intros st' Hsteps.
  assert (forall cfg, rtc step ([race_condition; race_condition], st) cfg ->
            exists s0 s1 c, fst cfg = [thread_at s0; thread_at s1] /\
                            snd cfg = set_counter c st /\
                            two_calls_at (counter st) s0 s1 c) as Hinv.
  { apply rtc_ind_r.
    - exists NotRead, NotRead, (counter st). cbn [fst snd thread_at two_calls_at].
      rewrite set_counter_same. repeat split.
    - intros [T1 st1] [T2 st2] _ Hstep IH. cbn [fst snd] in *.
      eapply two_calls_step; eassumption. }
  destruct (Hinv _ Hsteps) as (s0 & s1 & c & HT & Hst & Hat). cbn [fst snd] in HT, Hst.
  subst st'. injection HT as H0 H1. symmetry in H0, H1.
  apply thread_at_done in H0, H1. subst s0 s1.
  cbn [two_calls_at] in Hat. destruct Hat as [-> | ->]; [left|right]; reflexivity.
Qed.

Lemma two_calls_end_at_one_or_two_more_witness :
  rtc step ([race_condition; race_condition], initial_state 0)
           ([Ret tt; Ret tt], set_counter 1 (initial_state 0)) /\
  rtc step ([race_condition; race_condition], initial_state 0)
           ([Ret tt; Ret tt], set_counter 2 (initial_state 0)).
Proof.
  apply (two_calls_end_at_one_or_two_more (initial_state 0)); [reflexivity|now vm_compute].
Defined.

(** ** Inputs that are not strings *)





(** X9. Called with a null pointer, [process_string] stops at its first
    access, the read of [input[0]], in every state: the buffer has been
    allocated and nothing has been stored. *)
Theorem process_string_null_input (st : state) :
  run (process_string NULL) st =
    ([EvAlloc Automatic 10 (Ptr (next_block st) 0); EvLoad Char NULL 0],
     Undefined NullDereference (new_object Automatic 10 (heap_avail st) st)) /\
  Forall (fun ev => stores_to (next_block st) ev = false)
         (trace (process_string NULL) st).
Proof.
  assert (run (process_string NULL) st =
    ([EvAlloc Automatic 10 (Ptr (next_block st) 0); EvLoad Char NULL 0],
     Undefined NullDereference (new_object Automatic 10 (heap_avail st) st))) as Hrun.
  { unfold process_string. exec.
    eapply run_vis_ok; [reflexivity|]. cbn [bind].
    eapply run_vis_fault. cbn [handle]. unfold strcpy.
    destruct (bytes_from _ NULL); reflexivity. }
  split; [exact Hrun|]. unfold trace. rewrite Hrun. repeat constructor.
Qed.

(** ** The invariant of the state *)

Lemma wf_new_object (s : storage) (bytes avail : Z) (st : state) :
  wf_state st -> wf_state (new_object s bytes avail st).
Proof.
  intros [Hint Hbelow]. split; [exact Hint|]. cbn [new_object mem next_block].
  apply map_Forall_insert_2; [lia|].
  eapply map_Forall_impl; [exact Hbelow|]. cbn. intros; lia.
Qed.

Lemma wf_store (st : state) (t : ctype) (p : pointer) (idx v : Z) :
  wf_state st -> wf_state (result_state (store st t p idx v)).
Proof.
  intros Hwf. unfold store.
  destruct (locate st t p idx) as [u|[[b a] o]] eqn:Hl; [exact Hwf|].
  apply locate_inv in Hl as (off & _ & Hb & _).
  destruct Hwf as [Hint Hbelow]. split; [exact Hint|].
  cbn [result_state set_mem mem next_block].
  apply map_Forall_insert_2; [|exact Hbelow].
  apply (map_Forall_lookup_1 _ _ _ _ Hbelow Hb).
Qed.

Lemma wf_release (st : state) (s : storage) (p : pointer) :
  wf_state st -> wf_state (result_state (release st s p)).
Proof.
  intros Hwf. unfold release. destruct p as [|b off]; [destruct s; exact Hwf|].
  destruct (mem st !! b) as [o|]; [|exact Hwf].
  destruct Hwf as [Hint Hbelow].
  destruct s, (storage_of o), (off =? 0); try (split; assumption);
    (split; [exact Hint|]); cbn [result_state set_mem mem next_block];
    apply map_Forall_delete; exact Hbelow.
Qed.

Lemma wf_strcpy_from (fuel : nat) :
  forall (dst src : pointer) (i : Z) (st : state),
    wf_state st -> wf_state (result_state (snd (strcpy_from fuel dst src i st))).
Proof.
  induction fuel as [|fuel IH]; intros dst src i st Hwf; cbn [strcpy_from];
    (destruct (overlap_at dst src i); [exact Hwf|]);
    pose proof (load_state st Char src i) as Hl;
    (destruct (load st Char src i) as [c st1|u st1]; cbn [result_state] in Hl; subst st1;
     [|exact Hwf]);
    pose proof (wf_store st Char dst i c Hwf) as Hs;
    (destruct (store st Char dst i c) as [[] st2|u st2]; cbn [result_state] in Hs;
     [|exact Hs]);
    (destruct (c =? 0); [exact Hs|]).
  - exact Hs.
  - specialize (IH dst src (i + 1) st2 Hs).
    destruct (strcpy_from fuel dst src (i + 1) st2) as [evs r]. exact IH.
Qed.

Lemma wf_handle {X : Type} (e : op X) (st : state) :
  wf_state st ->
  match e with SetGlobal _ v => int_fits v = true | _ => True end ->
  wf_state (result_state (snd (handle e st))).
Proof.
  intros Hwf He. destruct e; cbn [handle fst snd].
  - destruct g. exact Hwf.
  - destruct g, Hwf as [_ Hbelow]. split; [exact He|exact Hbelow].
  - apply wf_new_object. exact Hwf.
  - apply wf_release. exact Hwf.
  - unfold malloc. destruct ((0 <=? bytes) && (bytes <=? heap_avail st));
      [apply wf_new_object|]; exact Hwf.
  - apply wf_release. exact Hwf.
  - rewrite load_state. exact Hwf.
  - apply wf_store. exact Hwf.
  - apply wf_strcpy_from. exact Hwf.
  - exact Hwf.
Qed.

Lemma wf_run {A : Type} (p : prog A) :
  stores_ints p ->
  forall st, wf_state st -> wf_state (final_state (result_of p st)).
Proof.
  induction p as [a|X e k IH]; intros Hp st Hwf.
  - exact Hwf.
  - destruct Hp as [He Hk]. unfold result_of. cbn [run].
    pose proof (wf_handle e st Hwf He) as Hh.
    destruct (handle e st) as [evs [x st'|u st']]; cbn [snd result_state] in Hh.
    + specialize (IH x (Hk x) st' Hh). unfold result_of in IH.
      destruct (run (k x) st') as [evs' o]. exact IH.
    + exact Hh.
Qed.

Lemma stores_ints_bind {A B : Type} (p : prog A) (f : A -> prog B) :
  stores_ints p -> (forall a, stores_ints (f a)) -> stores_ints (bind p f).
Proof.
  induction p as [a|X e k IH]; cbn [bind stores_ints]; intros Hp Hf.
  - apply Hf.
  - destruct Hp as [He Hk]. split; [exact He|]. intros x. apply IH; [apply Hk|exact Hf].
Qed.

Lemma stores_ints_calls (n : nat) (f : prog unit) :
  stores_ints f -> stores_ints (calls n f).
Proof.
  intros Hf. induction n as [|n IH]; cbn [calls]; [exact I|].
  apply stores_ints_bind; [exact Hf|intros _; exact IH].
Qed.

Ltac stores_ints_tac :=
  repeat first
    [ exact I
    | split; [exact I|intros; cbn [bind trigger stores_ints]] ].

Lemma process_string_stores_ints (input : pointer) : stores_ints (process_string input).
Proof. unfold process_string. exec. cbn [stores_ints]. stores_ints_tac. Qed.

Lemma memory_issue_stores_ints : stores_ints memory_issue.
Proof. unfold memory_issue. exec. cbn [stores_ints]. stores_ints_tac. Qed.

Lemma BAD_FUNCTION_NAME_stores_ints : stores_ints BAD_FUNCTION_NAME.
Proof.
  unfold BAD_FUNCTION_NAME. exec. cbn [stores_ints]. stores_ints_tac.
  match goal with |- context [?x >? 0] => destruct (x >? 0) end;
    cbn [bind trigger stores_ints]; stores_ints_tac.
Qed.

Lemma race_condition_stores_ints : stores_ints race_condition.
Proof.
  unfold race_condition. exec. cbn [stores_ints]. split; [exact I|]. intros v.
  cbn [bind]. unfold int_add. cbn [bind trigger stores_ints].
  split; [apply int_fits_wrap|]. intros _. exact I.
Qed.

(** X10. The state stays well formed through any number of calls of any of
    the four functions, however the run ends: [global_counter] still holds a
    value of type [int] (the increment never stores a value outside that
    range) and every live object still lies below the next fresh block. *)
Theorem calls_keep_state_well_formed (st : state) (input : pointer) (f : prog unit)
    (n : nat)
    (Hf : f = process_string input \/ f = memory_issue \/
          f = race_condition \/ f = BAD_FUNCTION_NAME)
    (Hwf : wf_state st) :
  wf_state (final_state (result_of (calls n f) st)).
Proof.
  apply wf_run; [|exact Hwf]. apply stores_ints_calls.
  destruct Hf as [->|[->|[->| ->]]].
  - apply process_string_stores_ints.
  - apply memory_issue_stores_ints.
  - apply race_condition_stores_ints.
  - apply BAD_FUNCTION_NAME_stores_ints.
Qed.

Lemma calls_keep_state_well_formed_witness :
  wf_state (final_state (result_of (calls 5 race_condition)
                                   (set_counter (INT_MAX - 2) (initial_state 0)))).
Proof.
  apply (calls_keep_state_well_formed _ NULL race_condition 5).
  - right. right. left. reflexivity.
  - split; [reflexivity|apply map_Forall_empty].
Defined.

(** ** Repeated copies *)

Lemma wf_next_block (st : state) :
  wf_state st ->
  wf_state (State (counter st) (mem st) (S (next_block st)) (heap_avail st) (stdout st)).
Proof.
  intros [Hint Hbelow]. split; [exact Hint|]. cbn [mem next_block].
  eapply map_Forall_impl; [exact Hbelow|]. cbn. intros; lia.
Qed.

(** X11. Unlike [memory_issue], [process_string] leaves nothing behind: any
    number of calls in a row on a NUL-terminated string of at most 9
    characters all return, with the counter, every object, the heap and the
    output as they were before the first call. *)
Theorem process_string_calls_leave_no_trace (input : pointer) (s : list Z) (n : nat) :
  forall (st : state),
    wf_state st -> cstring_at st input s = true -> Z.of_nat (length s) + 1 <= 10 ->
    result_of (calls n (process_string input)) st
    = Returned tt (State (counter st) (mem st) (next_block st + n)%nat
                         (heap_avail st) (stdout st)).
Proof.
  induction n as [|n IH]; intros st Hwf Hstr Hshort.
  - cbn [calls]. rewrite Nat.add_0_r. destruct st. reflexivity.
  - destruct (cstring_at_inv st input s Hstr)
      as (bs & os & osrc & Hin & Hsrc & Hlo & Hhi & Hholds).
    pose proof (run_process_string_fits st bs os osrc s Hwf Hsrc Hlo Hhi Hholds Hshort)
      as Hrun.
    rewrite <- Hin in Hrun. cbn [calls].
    erewrite result_of_then; [|unfold result_of; rewrite Hrun; reflexivity].
    rewrite IH; [|apply wf_next_block; exact Hwf|exact Hstr|exact Hshort].
    cbn [counter mem next_block heap_avail stdout].
    replace (S (next_block st) + n)%nat with (next_block st + S n)%nat by lia.
    reflexivity.
Qed.

Lemma process_string_calls_leave_no_trace_witness :
  result_of (calls 3 (process_string (Ptr 0%nat 0))) (caller_state [72; 105] 64)
  = Returned tt (State 0 (mem (caller_state [72; 105] 64)) 4%nat 64 []).
Proof.
  apply (process_string_calls_leave_no_trace (Ptr 0%nat 0) [72; 105] 3
           (caller_state [72; 105] 64)).
  - split; [reflexivity|]. apply map_Forall_singleton. cbn. lia.
  - now vm_compute.
  - cbn. lia.
Defined.
